(** * The post loader and the feed builder of the blog

    A shallow embedding of [getPosts] and [generateFeed]: the loader lists
    [./public/], reads every sub-directory's [index.md], merges the parsed
    front-matter into a record that starts with the directory name as [slug],
    and sorts the records with a date comparator; the feed builder appends one
    feed item per loaded record.

    What the program calls but does not define is kept abstract: the
    file system, gray-matter's [matter], the engine's [Array.prototype.sort]
    and the engine-specific part of [Date.parse]. *)

From Stdlib Require Import ZArith Ascii String.
From stdpp Require Import gmap strings list sorting.

Local Open Scope Z_scope.

(** ** JavaScript values

    The [Post] interface types every front-matter field as a string; reading
    a property the object lacks gives [undefined]. *)

Inductive JSValue : Type :=
  | undefined
  | JSString (s : string).

(** Numbers as the program meets them: time values, which are integral
    numbers of milliseconds, and [NaN]. *)
Inductive JSNumber : Type :=
  | NaN
  | Finite (t : Z).

Definition ToString (v : JSValue) : string :=
  match v with
  | undefined => "undefined"
  | JSString s => s
  end.

(** [x < y] on numbers: any comparison with [NaN] is false. *)
Definition Number_lt (x y : JSNumber) : bool :=
  match x, y with
  | Finite a, Finite b => bool_decide (a < b)
  | _, _ => false
  end.

(** Objects with string-valued own properties, and the property read [o.k]. *)
Abbreviation JSObject := (gmap string string).

Definition get (o : JSObject) (k : string) : JSValue :=
  match o !! k with
  | Some s => JSString s
  | None => undefined
  end.

(** ** Results of calls that may throw or reject *)

Inductive Error : Type :=
  | ReadError (code : string)
  | ParseError (reason : string).

Inductive Result (A : Type) : Type :=
  | Ok (a : A)
  | Err (e : Error).
Arguments Ok {A} a.
Arguments Err {A} e.

#[global] Instance Result_ret : MRet Result := λ A a, Ok a.
#[global] Instance Result_bind : MBind Result := λ A B f m,
  match m with
  | Ok a => f a
  | Err e => Err e
  end.

(** [Promise.all]: resolved with every value when all promises resolve,
    rejected as soon as one of them is.  With several rejected promises the
    model reports the one of least index. *)
Fixpoint Promise_all {A} (ps : list (Result A)) : Result (list A) :=
  match ps with
  | [] => Ok []
  | p :: ps' =>
      match p, Promise_all ps' with
      | Err e, _ => Err e
      | Ok _, Err e => Err e
      | Ok a, Ok l => Ok (a :: l)
      end
  end.

(** [Array.prototype.map] with a callback [(element, index) => ...] that may
    throw: the first exception ends the traversal. *)
Fixpoint Array_map {A B} (f : A → nat → Result B) (i : nat) (l : list A)
    : Result (list B) :=
  match l with
  | [] => Ok []
  | x :: l' =>
      y ← f x i;
      ys ← Array_map f (S i) l';
      Ok (y :: ys)
  end.

(** [a[i]]: [undefined] outside the array. *)
Definition Array_get (a : list string) (i : nat) : JSValue :=
  match a !! i with
  | Some s => JSString s
  | None => undefined
  end.

(** ** Dates

    [Date.parse] must read the ECMAScript date-time string format; for any
    other string it may fall back on heuristics of the engine.  The date-only
    form [YYYY-MM-DD] of a calendar day is spelled out here (it denotes UTC
    midnight of that day); everything else is left to the engine. *)

Definition digit (c : ascii) : option Z :=
  let n := Z.of_N (N_of_ascii c) in
  if (48 <=? n) && (n <=? 57) then Some (n - 48) else None.

Definition digits2 (a b : ascii) : option Z :=
  x ← digit a; y ← digit b; Some (10 * x + y).

Definition digits4 (a b c d : ascii) : option Z :=
  x ← digits2 a b; y ← digits2 c d; Some (100 * x + y).

Definition InLeapYear (y : Z) : bool :=
  ((y mod 4 =? 0) && negb (y mod 100 =? 0)) || (y mod 400 =? 0).

Definition DayFromYear (y : Z) : Z :=
  365 * (y - 1970) + (y - 1969) / 4 - (y - 1901) / 100 + (y - 1601) / 400.

Definition DaysInMonth (y m : Z) : Z :=
  if m =? 2 then (if InLeapYear y then 29 else 28)
  else if (m =? 4) || (m =? 6) || (m =? 9) || (m =? 11) then 30
  else 31.

(** Days of the year [y] that precede its month [m] (1 to 12). *)
Definition DaysBeforeMonth (y m : Z) : Z :=
  foldr Z.add 0 (DaysInMonth y <$> seqZ 1 (m - 1)).

Definition msPerDay : Z := 86400000.

Definition MakeDay (y m d : Z) : Z :=
  DayFromYear y + DaysBeforeMonth y m + (d - 1).

Definition iso_date (s : string) : option Z :=
  match list_ascii_of_string s with
  | [y1; y2; y3; y4; dash1; m1; m2; dash2; d1; d2] =>
      if Ascii.eqb dash1 "-" && Ascii.eqb dash2 "-" then
        y ← digits4 y1 y2 y3 y4;
        m ← digits2 m1 m2;
        d ← digits2 d1 d2;
        if (1 <=? m) && (m <=? 12) && (1 <=? d) && (d <=? DaysInMonth y m)
        then Some (MakeDay y m d * msPerDay)
        else None
      else None
  | _ => None
  end.

(** ** The file system

    [readdir] with [withFileTypes] lists a directory as entries that tell
    their name and whether they are directories; [readFile] gives a file's
    text.  Either may reject with the code of a system error. *)

Record Dirent : Type := { name : string; isDirectory : bool }.

Record FileSystem : Type := {
  readdir : string → Result (list Dirent);
  readFile : string → Result string
}.

(** ** The feed document

    The [Feed] class of the feed package keeps the options it was built with
    and an array of items; [addItem] pushes onto that array. *)

Module Author.
Record t : Type := { name : string; link : string }.
End Author.

Module FeedLinks.
Record t : Type := { atom : string; rss : string }.
End FeedLinks.

Module FeedOptions.
Record t : Type := {
  author : Author.t;
  description : string;
  favicon : string;
  feedLinks : FeedLinks.t;
  generator : string;
  id : string;
  image : string;
  link : string;
  title : string
}.
End FeedOptions.

Module Item.
Record t : Type := {
  date : JSNumber;
  description : JSValue;
  id : string;
  link : string;
  title : JSValue
}.
End Item.

Record Feed : Type := { options : FeedOptions.t; items : list Item.t }.

Definition new_Feed (o : FeedOptions.t) : Feed := {| options := o; items := [] |}.

Definition addItem (feed : Feed) (item : Item.t) : Feed :=
  {| options := options feed; items := items feed ++ [item] |}.

(** ** Fixtures

    Stand-ins for the engine and the libraries, to run the loader on
    concrete post directories. *)

(** A sort that takes the elements from left to right and puts each one
    before the first element of the sorted part that the comparator does not
    place ahead of it. *)
Fixpoint insert {A} (compare : A → A → Z) (x : A) (l : list A) : list A :=
  match l with
  | [] => [x]
  | y :: l' => if compare x y <? 0 then x :: l else y :: insert compare x l'
  end.

Definition insertion_sort {A} (compare : A → A → Z) (l : list A) : list A :=
  foldl (λ sorted x, insert compare x sorted) [] l.

(** A reader of front-matter for documents in the layout
    [---], lines [key: 'value'], [---], body.  A document that does not open
    with [---] has no front-matter; any other document is reported as
    malformed. *)
Definition newline : string := String "010" EmptyString.

Fixpoint split_on (c : ascii) (s : string) : list string :=
  match s with
  | EmptyString => [EmptyString]
  | String a s' =>
      if Ascii.eqb a c then EmptyString :: split_on c s'
      else match split_on c s' with
           | [] => [String a EmptyString]
           | w :: ws => String a w :: ws
           end
  end.

Definition unlines (ls : list string) : string :=
  foldr (λ l s, l +:+ newline +:+ s) EmptyString ls.

Definition quoted (s : string) : option string :=
  match s with
  | String "'" s' =>
      let n := String.length s' in
      match n, String.index 0 "'" s' with
      | S k, Some i => if decide (i = k) then Some (String.substring 0 k s') else None
      | _, _ => None
      end
  | _ => None
  end.

Definition key_value (line : string) : option (string * string) :=
  match String.index 0 ": " line with
  | Some i =>
      v ← quoted (String.substring (i + 2) (String.length line - (i + 2)) line);
      Some (String.substring 0 i line, v)
  | None => None
  end.

Fixpoint front_matter (lines : list string) (data : JSObject) : Result JSObject :=
  match lines with
  | [] => Err (ParseError "front-matter is not closed")
  | line :: lines' =>
      if String.eqb line "---" then Ok data
      else match key_value line with
           | Some (k, v) =>
               match data !! k with
               | Some _ => Err (ParseError "duplicated mapping key")
               | None => front_matter lines' (<[k := v]> data)
               end
           | None => Err (ParseError "not a quoted scalar")
           end
  end.

Definition fixture_matter (input : JSValue) : Result JSObject :=
  match input with
  | undefined => Err (ParseError "expected input to be a string or buffer")
  | JSString s =>
      match split_on "010" s with
      | first :: lines =>
          if String.eqb first "---" then front_matter lines ∅ else Ok ∅
      | [] => Ok ∅
      end
  end.

(** No string but a calendar day is a date. *)
Definition fixture_Date_parse_other (s : string) : JSNumber := NaN.

(** A posts root with the given entries, where [files] maps the paths of the
    files that can be read to their text. *)
Definition fixture_fs (entries : list Dirent) (files : gmap string string)
    : FileSystem := {|
  readdir := λ path,
    if String.eqb path "./public/" then Ok entries
    else Err (ReadError "ENOENT");
  readFile := λ path,
    match files !! path with
    | Some text => Ok text
    | None => Err (ReadError "ENOENT")
    end
|}.

Definition dir (n : string) : Dirent := {| name := n; isDirectory := true |}.
Definition file (n : string) : Dirent := {| name := n; isDirectory := false |}.

Definition document (front : list string) : string :=
  unlines ("---" :: front ++ ["---"; "Body."]).

Definition old_md : string :=
  document ["title: 'Old'"; "date: '2023-01-01'"; "spoiler: 'Then'"].
Definition new_md : string :=
  document ["title: 'New'"; "date: '2024-06-01'"; "spoiler: 'Now'"].

(** The two posts of the ordering scenario, listed oldest first. *)
Definition fs_two : FileSystem :=
  fixture_fs [dir "old"; file "favicon.ico"; dir "new"]
    {[ "./public/old/index.md" := old_md; "./public/new/index.md" := new_md ]}.

(** A root that holds files only. *)
Definition fs_empty : FileSystem :=
  fixture_fs [file "favicon.ico"; file "robots.txt"] ∅.

(** A root with a directory whose [index.md] is missing. *)
Definition fs_lost : FileSystem :=
  fixture_fs [dir "old"; dir "lost"; dir "new"]
    {[ "./public/old/index.md" := old_md; "./public/new/index.md" := new_md ]}.

(** Posts whose front-matter lacks fields. *)
Definition untitled_md : string := document ["date: '2024-06-01'"].
Definition undated_md : string := document ["title: 'Undated'"; "spoiler: 'Whenever'"].

Definition fs_partial : FileSystem :=
  fixture_fs [dir "untitled"; dir "undated"]
    {[ "./public/untitled/index.md" := untitled_md;
       "./public/undated/index.md" := undated_md ]}.

(** Two directories whose front-matter names the same slug. *)
Definition first_md : string :=
  document ["slug: 'x'"; "title: 'First'"; "date: '2024-01-01'"; "spoiler: 'One'"].
Definition second_md : string :=
  document ["slug: 'x'"; "title: 'Second'"; "date: '2024-01-02'"; "spoiler: 'Two'"].

Definition fs_same_slug : FileSystem :=
  fixture_fs [dir "a"; dir "b"]
    {[ "./public/a/index.md" := first_md; "./public/b/index.md" := second_md ]}.

(** The records that the fixtures are expected to load. *)
Definition old_post : JSObject :=
  {[ "slug" := "old"; "title" := "Old"; "date" := "2023-01-01"; "spoiler" := "Then" ]}.
Definition new_post : JSObject :=
  {[ "slug" := "new"; "title" := "New"; "date" := "2024-06-01"; "spoiler" := "Now" ]}.
Definition untitled_post : JSObject :=
  {[ "slug" := "untitled"; "date" := "2024-06-01" ]}.
Definition undated_post : JSObject :=
  {[ "slug" := "undated"; "title" := "Undated"; "spoiler" := "Whenever" ]}.
Definition first_post : JSObject :=
  {[ "slug" := "x"; "title" := "First"; "date" := "2024-01-01"; "spoiler" := "One" ]}.
Definition second_post : JSObject :=
  {[ "slug" := "x"; "title" := "Second"; "date" := "2024-01-02"; "spoiler" := "Two" ]}.

(** The two posts again, listed newest first. *)
Definition fs_two_reversed : FileSystem :=
  fixture_fs [dir "new"; dir "old"]
    {[ "./public/old/index.md" := old_md; "./public/new/index.md" := new_md ]}.


(** A document whose front-matter the reader rejects, after one it accepts. *)
Definition malformed_md : string := document ["title: 'Broken"].

Definition fs_malformed : FileSystem :=
  fixture_fs [dir "old"; dir "broken"; dir "new"]
    {[ "./public/old/index.md" := old_md;
       "./public/broken/index.md" := malformed_md;
       "./public/new/index.md" := new_md ]}.

(** ** The module *)

Module metadata.
Definition title : string := "dragon-slayer — A blog by Sriram".
Definition description : string := "A blog by Sriram".
End metadata.

(** The feeds that the pages advertise ([metadata.alternates.types]) and the
    base of the site's URLs in the root layout ([metadata.metadataBase]). *)
Module alternates.
Definition atom_xml : string := "https://github.psriram.com/atom.xml".
Definition rss_xml : string := "https://github.psriram.com/rss.xml".
End alternates.

Module layout.
Definition metadataBase : string := "https://github.psriram.com/".
End layout.

Section Blog.

(** The engine's reading of date strings outside the date-only form. *)
Variable Date_parse_other : string → JSNumber.
(** gray-matter: the front-matter of a document, or an exception. *)
Variable matter : JSValue → Result JSObject.
(** [Array.prototype.sort] of the engine. *)
Variable sort : ∀ {A : Type}, (A → A → Z) → list A → list A.

Definition Date_parse (v : JSValue) : JSNumber :=
  let s := ToString v in
  match iso_date s with
  | Some t => Finite t
  | None => Date_parse_other s
  end.

(** [new Date(v)]: a string is parsed as by [Date.parse]; [undefined]
    converts to the number [NaN]. *)
Definition new_Date (v : JSValue) : JSNumber :=
  match v with
  | undefined => NaN
  | JSString _ => Date_parse v
  end.

(** [{ slug, ...data }]: the properties of [data] are copied over an object
    that holds [slug], so a [slug] of [data] replaces it. *)
Definition make_post (slug : string) (data : JSObject) : JSObject :=
  data ∪ {[ "slug" := slug ]}.

Definition compare (a b : JSObject) : Z :=
  if Number_lt (Date_parse (get a "date")) (Date_parse (get b "date"))
  then 1 else -1.

Definition getPosts (fs : FileSystem) : Result (list JSObject) :=
  entries ← readdir fs "./public/";
  let dirs := name <$> filter (λ entry, isDirectory entry) entries in
  fileContents ←
    Promise_all ((λ dir, readFile fs ("./public/" +:+ dir +:+ "/index.md")) <$> dirs);
  posts ←
    Array_map (λ slug i,
      let fileContent := Array_get fileContents i in
      data ← matter fileContent;
      Ok (make_post slug data)) 0%nat dirs;
  Ok (sort compare posts).

Definition site_url : string := "https://github.psriram.com/".

Definition feedOptions : FeedOptions.t := {|
  FeedOptions.author := {| Author.name := "Sriram Prasanth"; Author.link := site_url |};
  FeedOptions.description := metadata.description;
  FeedOptions.favicon := site_url +:+ "/icon.jpeg";
  FeedOptions.feedLinks :=
    {| FeedLinks.atom := site_url +:+ "atom.xml";
       FeedLinks.rss := site_url +:+ "rss.xml" |};
  FeedOptions.generator := "Feed for Node.js";
  FeedOptions.id := site_url;
  FeedOptions.image := "https://avatars.githubusercontent.com/u/141391722";
  FeedOptions.link := site_url;
  FeedOptions.title := metadata.title
|}.

(** The item that the loop body hands to [addItem]. *)
Definition feed_item (post : JSObject) : Item.t := {|
  Item.date := new_Date (get post "date");
  Item.description := get post "spoiler";
  Item.id := site_url +:+ ToString (get post "slug") +:+ "/";
  Item.link := site_url +:+ ToString (get post "slug") +:+ "/";
  Item.title := get post "title"
|}.

Definition generateFeed (fs : FileSystem) : Result Feed :=
  posts ← getPosts fs;
  let feed := new_Feed feedOptions in
  Ok (foldl (λ feed post, addItem feed (feed_item post)) feed posts).

(** *** Vocabulary of the statements *)

(** The names of the sub-directories among the entries of the posts root. *)
Definition subdirectories (entries : list Dirent) : list string :=
  name <$> filter (λ entry, isDirectory entry) entries.

(** The source document of the post in directory [dir]. *)
Definition index_md (dir : string) : string :=
  "./public/" +:+ dir +:+ "/index.md".

(** Directory [dir] of the posts root holds a readable document whose
    front-matter is [data]. *)
Definition holds (fs : FileSystem) (dir : string) (data : JSObject) : Prop :=
  ∃ entries text,
    readdir fs "./public/" = Ok entries ∧
    dir ∈ subdirectories entries ∧
    readFile fs (index_md dir) = Ok text ∧
    matter (JSString text) = Ok data.

(** What the engine's sort is relied on for.  The comparator of [getPosts]
    never answers [0], so it is no consistent comparator in the sense of
    ECMAScript, which then leaves the order to the engine.  The insertion and
    merge sorts of the engines move an element ahead of another only on the
    strength of an answer of the comparator: the array is permuted, and
    whenever every answer agrees with a transitive relation [R] (a negative
    answer for [a], [b] only if [R a b], a positive one only if [R b a], zero
    only if both), consecutive elements of the result are related by [R]. *)
Definition agrees {A} (compare : A → A → Z) (R : relation A) (l : list A) : Prop :=
  ∀ a b, a ∈ l → b ∈ l →
    (compare a b < 0 → R a b) ∧
    (0 < compare a b → R b a) ∧
    (compare a b = 0 → R a b ∧ R b a).

Hypothesis sort_permutation :
  ∀ A (compare : A → A → Z) l, sort compare l ≡ₚ l.
Hypothesis sort_ordered :
  ∀ A (compare : A → A → Z) (R : relation A) l,
    Transitive R → agrees compare R l → Sorted R (sort compare l).

(** [p] is not older than [q]: both dates parse, to [tp ≥ tq]. *)
Definition not_older (p q : JSObject) : Prop :=
  ∃ tp tq,
    Date_parse (get p "date") = Finite tp ∧
    Date_parse (get q "date") = Finite tq ∧
    (tp >= tq)%Z.

(** ** Properties *)

Example iso_date_2023 : iso_date "2023-01-01" = Some 1672531200000.
Proof. reflexivity. Qed.

Example iso_date_2024 : iso_date "2024-06-01" = Some 1717200000000.
Proof. reflexivity. Qed.

Example iso_date_leap : iso_date "2024-02-29" = Some 1709164800000.
Proof. reflexivity. Qed.

Example iso_date_not_a_day : iso_date "2023-02-29" = None.
Proof. reflexivity. Qed.


(** *** Promises and arrays *)

Lemma Promise_all_Ok {A} (ps : list (Result A)) l :
  Promise_all ps = Ok l ↔ ps = Ok <$> l.
Proof.
  revert l. induction ps as [|p ps IH]; intros l; simpl.
  - split; [intros [= <-]; done | by destruct l].
  - destruct p as [a|e].
    + destruct (Promise_all ps) as [l'|e] eqn:Hall.
      * split.
        -- intros [= <-]. simpl. f_equal. by apply IH.
        -- destruct l as [|a' l'']; [done|]. intros [= -> Hps].
           apply IH in Hps. by injection Hps as ->.
      * split; [done|]. destruct l as [|a' l'']; [done|]. intros [= -> Hps].
        apply IH in Hps. done.
    + split; [done|]. by destruct l.
Qed.

Lemma Promise_all_fmap_Ok {A B} (f : A → Result B) l k :
  Promise_all (f <$> l) = Ok k ↔ Forall2 (λ x y, f x = Ok y) l k.
Proof. by rewrite Promise_all_Ok, list_eq_Forall2, Forall2_fmap. Qed.

Lemma Promise_all_Err {A} (ps : list (Result A)) e :
  Err e ∈ ps → ∃ e', Promise_all ps = Err e' ∧ Err e' ∈ ps.
Proof.
  induction ps as [|p ps IH]; intros Hin.
  - by apply elem_of_nil in Hin.
  - simpl. destruct p as [a|e0].
    + apply elem_of_cons in Hin as [?|Hin]; [done|].
      destruct (IH Hin) as (e' & -> & Hin'). exists e'. split; [done|]. by right.
    + exists e0. split; [done|]. by left.
Qed.

Lemma Promise_all_total {A} (ps : list (Result A)) :
  (∀ p, p ∈ ps → ∃ a, p = Ok a) → ∃ l, Promise_all ps = Ok l.
Proof.
  induction ps as [|p ps IH]; intros Hall; simpl; [by eexists|].
  destruct (Hall p) as [a ->]; [by left|].
  destruct IH as [l ->]; [intros q Hq; apply Hall; by right|]. by eexists.
Qed.

Lemma Array_map_Ok {A B} (f : A → nat → Result B) i l ys :
  Array_map f i l = Ok ys →
  length ys = length l ∧
  ∀ k x, l !! k = Some x → ∃ y, ys !! k = Some y ∧ f x (i + k)%nat = Ok y.
Proof.
  revert i ys. induction l as [|x l IH]; intros i ys; simpl.
  - intros [= <-]. split; [done|]. intros k x Hk. by rewrite lookup_nil in Hk.
  - destruct (f x i) as [y|e] eqn:Hf; simpl; [|done].
    destruct (Array_map f (S i) l) as [ys'|e] eqn:Hmap; simpl; [|done].
    intros [= <-]. destruct (IH _ _ Hmap) as [Hlen Hlook]. split.
    + simpl. by rewrite Hlen.
    + intros [|k] x' Hk; simpl in Hk.
      * injection Hk as <-. exists y. by rewrite Nat.add_0_r.
      * destruct (Hlook k x' Hk) as (y' & Hy' & Hfy'). exists y'.
        split; [done|]. by rewrite Nat.add_succ_r.
Qed.


(** *** The loader, step by step *)

(** The callback of the second [dirs.map], over the contents that are still
    to be consumed: with [fileContents = before ++ texts] and the traversal
    at index [length before], the records are built from the front-matter of
    [texts], in order. *)
Lemma read_posts_Ok dirs texts before posts :
  length dirs = length texts →
  Array_map (λ slug i,
      let fileContent := Array_get (before ++ texts) i in
      data ← matter fileContent;
      Ok (make_post slug data)) (length before) dirs = Ok posts
  ↔ ∃ datas,
      Forall2 (λ text data, matter (JSString text) = Ok data) texts datas ∧
      posts = zip_with make_post dirs datas.
Proof.
  revert texts before posts.
  induction dirs as [|d dirs IH]; intros [|text texts] before posts Hlen;
    simplify_eq/=.
  - split.
    + intros [= <-]. exists []. by split.
    + intros (datas & Hall & ->). done.
  - assert (Array_get (before ++ text :: texts) (length before) = JSString text)
      as -> by (unfold Array_get; by rewrite list_lookup_middle).
    specialize (IH texts (before ++ [text])).
    rewrite <- (assoc_L (++)) in IH. simpl in IH.
    rewrite length_app in IH. simpl in IH. rewrite Nat.add_1_r in IH.
    destruct (matter (JSString text)) as [data|e] eqn:Hm; simpl.
    + destruct (Array_map _ _ dirs) as [posts'|e]; simpl.
      * split.
        -- intros [= <-].
           destruct (proj1 (IH posts' Hlen) eq_refl) as (datas & Hall & ->).
           exists (data :: datas). split; [by constructor|done].
        -- intros (datas' & Hall' & ->).
           inversion Hall' as [|? data' ? datas Hd Hrest]; subst.
           rewrite Hm in Hd. injection Hd as <-. simpl. do 2 f_equal.
           assert (Ok posts' = Ok (zip_with make_post dirs datas)) as Hsame
             by (apply IH; eauto).
           by injection Hsame.
      * split; [done|]. intros (datas' & Hall' & ->).
        inversion Hall' as [|? data' ? datas Hd Hrest]; subst.
        assert (Err e = Ok (zip_with make_post dirs datas)) as Hsame
          by (apply IH; eauto).
        done.
    + split; [done|]. intros (datas' & Hall' & ->).
      inversion Hall' as [|? data' ? datas Hd Hrest]; subst.
      rewrite Hm in Hd. done.
Qed.

(** [getPosts] resolves exactly when the root can be listed and every
    sub-directory's document can be read and parsed; its value is then the
    sorted array of the records built in directory order. *)
Lemma getPosts_Ok fs posts :
  getPosts fs = Ok posts ↔
  ∃ entries texts datas,
    readdir fs "./public/" = Ok entries ∧
    Forall2 (λ dir text, readFile fs (index_md dir) = Ok text)
      (subdirectories entries) texts ∧
    Forall2 (λ text data, matter (JSString text) = Ok data) texts datas ∧
    posts = sort compare (zip_with make_post (subdirectories entries) datas).
Proof.
  unfold getPosts. split.
  - destruct (readdir fs "./public/") as [entries|e]; simpl; [|done].
    fold (subdirectories entries).
    destruct (Promise_all _) as [texts|e] eqn:Hread; simpl; [|done].
    apply Promise_all_fmap_Ok in Hread.
    destruct (Array_map _ _ _) as [posts'|e] eqn:Hmap; simpl; [|done].
    intros [= <-].
    apply (read_posts_Ok _ _ []) in Hmap as (datas & Hdatas & ->);
      [|by eapply Forall2_length].
    exists entries, texts, datas. done.
  - intros (entries & texts & datas & -> & Hread & Hdatas & ->). simpl.
    fold (subdirectories entries).
    assert (Promise_all ((λ dir, readFile fs ("./public/" +:+ dir +:+ "/index.md"))
              <$> subdirectories entries) = Ok texts) as ->.
    { by apply Promise_all_fmap_Ok. }
    simpl.
    assert (Array_map (λ slug i,
              let fileContent := Array_get ([] ++ texts) i in
              data ← matter fileContent; Ok (make_post slug data)) 0
              (subdirectories entries)
            = Ok (zip_with make_post (subdirectories entries) datas)) as Hmap.
    { apply (read_posts_Ok _ _ []); [by eapply Forall2_length|]. by exists datas. }
    simpl in Hmap. rewrite Hmap. done.
Qed.

(** The same, with the document of each directory left implicit. *)
Lemma getPosts_inv fs posts :
  getPosts fs = Ok posts →
  ∃ entries datas,
    readdir fs "./public/" = Ok entries ∧
    Forall2 (λ dir data, holds fs dir data) (subdirectories entries) datas ∧
    posts = sort compare (zip_with make_post (subdirectories entries) datas).
Proof.
  intros (entries & texts & datas & Hdir & Hread & Hdatas & ->)%getPosts_Ok.
  exists entries, datas. split; [done|]. split; [|done].
  assert (∀ dir, dir ∈ subdirectories entries →
            ∀ text data, readFile fs (index_md dir) = Ok text →
              matter (JSString text) = Ok data → holds fs dir data) as Hholds.
  { intros dir Hin text data ? ?. by exists entries, text. }
  clear Hdir. revert Hholds datas Hdatas.
  induction Hread as [|dir text dirs texts Hd Hread IH]; intros Hholds datas Hdatas.
  - inversion Hdatas. constructor.
  - inversion Hdatas as [|? data ? datas' Hm Hrest]; subst. constructor.
    + eapply Hholds; [by left|done..].
    + apply IH; [|done]. intros dir' Hin. apply Hholds. by right.
Qed.

(** The loaded records are those of the directories, one for one. *)
Lemma getPosts_Permutation fs posts :
  getPosts fs = Ok posts →
  ∃ entries datas,
    readdir fs "./public/" = Ok entries ∧
    Forall2 (λ dir data, holds fs dir data) (subdirectories entries) datas ∧
    posts ≡ₚ zip_with make_post (subdirectories entries) datas.
Proof.
  intros (entries & datas & Hdir & Hall & ->)%getPosts_inv.
  exists entries, datas. split; [done|]. split; [done|].
  apply sort_permutation.
Qed.

(** *** The comparator and the order of the loaded posts *)

Lemma compare_cases a b :
  (compare a b = 1 ∧
   ∃ ta tb, Date_parse (get a "date") = Finite ta ∧
            Date_parse (get b "date") = Finite tb ∧ ta < tb) ∨
  (compare a b = -1 ∧
   ¬ ∃ ta tb, Date_parse (get a "date") = Finite ta ∧
              Date_parse (get b "date") = Finite tb ∧ ta < tb).
Proof.
  unfold compare.
  destruct (Date_parse (get a "date")) as [|ta], (Date_parse (get b "date")) as [|tb];
    simpl; try (right; split; [done|]; by intros (? & ? & ? & ? & ?)).
  case_bool_decide as Hlt.
  - left. split; [done|]. by exists ta, tb.
  - right. split; [done|]. intros (? & ? & [= <-] & [= <-] & ?). done.
Qed.

Lemma not_older_transitive : Transitive not_older.
Proof.
  intros p q r (tp & tq & Hp & Hq & Hpq) (tq' & tr & Hq' & Hr & Hqr).
  rewrite Hq in Hq'. injection Hq' as <-. exists tp, tr.
  split; [done|]. split; [done|lia].
Qed.

Lemma compare_agrees posts :
  (∀ p, p ∈ posts → ∃ t, Date_parse (get p "date") = Finite t) →
  agrees compare not_older posts.
Proof.
  intros Hparse a b [ta Ha]%Hparse [tb Hb]%Hparse.
  destruct (compare_cases a b) as [[-> (ta' & tb' & Ha' & Hb' & Hlt)]|[-> Hnot]].
  - split; [done|]. split; [|done].
    intros _. exists tb', ta'. split; [done|]. split; [done|lia].
  - split; [|by split]. intros _. exists ta, tb. split; [done|]. split; [done|].
    destruct (decide (ta < tb)); [|lia]. destruct Hnot. by exists ta, tb.
Qed.

Lemma Sorted_lookup_next {A} (R : relation A) l i x y :
  Sorted R l → l !! i = Some x → l !! S i = Some y → R x y.
Proof.
  intros Hsorted. revert i. induction Hsorted as [|a l Hsorted IH Hhd]; intros i Hx Hy.
  - by rewrite lookup_nil in Hx.
  - destruct i as [|i]; simpl in *.
    + injection Hx as ->. destruct Hhd as [|b l' Hab]; simpl in Hy; [done|].
      by injection Hy as ->.
    + by eapply IH.
Qed.

Lemma Date_parse_2023 : Date_parse (JSString "2023-01-01") = Finite 1672531200000.
Proof. reflexivity. Qed.

Lemma Date_parse_2024 : Date_parse (JSString "2024-06-01") = Finite 1717200000000.
Proof. reflexivity. Qed.

(** C1. When every loaded post has a date that parses, the list that
    [getPosts] returns is sorted by parsed date, newest first: each post's
    timestamp is at least that of the post after it.  In particular, when the
    loaded posts are exactly the post of slug "old" dated 2023-01-01 and the
    post of slug "new" dated 2024-06-01, the list is "new", then "old". *)
Theorem getPosts_sorted_by_date fs posts :
  getPosts fs = Ok posts →
  ((∀ p, p ∈ posts → ∃ t, Date_parse (get p "date") = Finite t) →
   ∀ i p q, posts !! i = Some p → posts !! S i = Some q →
     ∃ tp tq, Date_parse (get p "date") = Finite tp ∧
              Date_parse (get q "date") = Finite tq ∧
              (tp >= tq)%Z) ∧
  ((λ p, (get p "slug", get p "date")) <$> posts ≡ₚ
     [(JSString "old", JSString "2023-01-01");
      (JSString "new", JSString "2024-06-01")] →
   (λ p, get p "slug") <$> posts = [JSString "new"; JSString "old"]).
Proof.
  intros Hget.
  assert (Hsorted : (∀ p, p ∈ posts → ∃ t, Date_parse (get p "date") = Finite t) →
            ∀ i p q, posts !! i = Some p → posts !! S i = Some q → not_older p q).
  { intros Hparse i p q Hp Hq.
    destruct (getPosts_inv _ _ Hget) as (entries & datas & _ & _ & Hposts).
    eapply Sorted_lookup_next; [|done..]. rewrite Hposts.
    apply sort_ordered; [apply not_older_transitive|]. apply compare_agrees.
    intros p' Hin. apply Hparse. by rewrite Hposts, sort_permutation. }
  split; [done|]. intros Htwo.
  symmetry in Htwo. apply Permutation_length_2_inv in Htwo.
  destruct posts as [|a [|b [|]]]; try (by destruct Htwo).
  destruct Htwo as [[= Hsa Hda Hsb Hdb]|[= Hsa Hda Hsb Hdb]]; simpl.
  - destruct (Hsorted) with (i := 0%nat) (p := a) (q := b)
      as (ta & tb & Ha & Hb & Hge); [|done..|].
    + intros p [->|[->|[]%elem_of_nil]%elem_of_cons]%elem_of_cons.
      * rewrite Hda. eexists. apply Date_parse_2023.
      * rewrite Hdb. eexists. apply Date_parse_2024.
    + rewrite Hda, Date_parse_2023 in Ha. rewrite Hdb, Date_parse_2024 in Hb.
      injection Ha as <-. injection Hb as <-. lia.
  - by rewrite Hsa, Hsb.
Qed.

(** C4. The comparator parses both dates; it answers with a positive number,
    which places [b] before [a], exactly when the date of [a] parses to a
    timestamp strictly before that of [b].  In every other case, equal
    timestamps and unparsable dates included, it answers [-1], and does so
    for the pair taken in either order. *)
Theorem compare_by_date a b :
  (0 < compare a b ↔
   ∃ ta tb, Date_parse (get a "date") = Finite ta ∧
            Date_parse (get b "date") = Finite tb ∧ ta < tb) ∧
  (compare a b = 1 ∨ compare a b = -1) ∧
  (Date_parse (get a "date") = Date_parse (get b "date") →
   compare a b = -1 ∧ compare b a = -1) ∧
  (Date_parse (get a "date") = NaN ∨ Date_parse (get b "date") = NaN →
   compare a b = -1 ∧ compare b a = -1).
Proof.
  split; [|split; [|split]].
  - destruct (compare_cases a b) as [[-> ?]|[-> ?]]; split; done.
  - destruct (compare_cases a b) as [[-> ?]|[-> ?]]; auto.
  - intros Heq. unfold compare. rewrite Heq.
    destruct (Date_parse (get b "date")) as [|t]; simpl; [done|].
    case_bool_decide; [lia|done].
  - unfold compare.
    intros [->| ->]; destruct (Date_parse (get _ "date")); done.
Qed.

(** *** Failures *)

Lemma generateFeed_Err fs e : getPosts fs = Err e → generateFeed fs = Err e.
Proof. unfold generateFeed. by intros ->. Qed.

(** C2. When the root is listed and the document of one of its
    sub-directories cannot be read, [getPosts] rejects with the error of such
    a read, so that no list of posts is produced, and [generateFeed] rejects
    with the same error. *)
Theorem getPosts_read_error fs entries dir e :
  readdir fs "./public/" = Ok entries →
  dir ∈ subdirectories entries →
  readFile fs (index_md dir) = Err e →
  ∃ dir' e',
    dir' ∈ subdirectories entries ∧
    readFile fs (index_md dir') = Err e' ∧
    getPosts fs = Err e' ∧
    generateFeed fs = Err e'.
Proof.
  intros Hdir Hin Hread.
  destruct (Promise_all_Err (readFile fs ∘ index_md <$> subdirectories entries) e)
    as (e' & Hall & Hin').
  { apply list_elem_of_fmap. by exists dir. }
  apply list_elem_of_fmap in Hin' as (dir' & Hread' & Hdir').
  assert (getPosts fs = Err e') as Hget.
  { unfold getPosts. rewrite Hdir. simpl. fold (subdirectories entries).
    unfold compose, index_md in Hall. by rewrite Hall. }
  exists dir', e'. split; [done|]. split; [done|]. split; [done|].
  by apply generateFeed_Err.
Qed.

(** *** The feed *)

Lemma addItem_loop feed posts :
  let feed' := foldl (λ feed post, addItem feed (feed_item post)) feed posts in
  options feed' = options feed ∧
  items feed' = items feed ++ (feed_item <$> posts).
Proof.
  revert feed. induction posts as [|post posts IH]; intros feed; simpl.
  - by rewrite app_nil_r.
  - destruct (IH (addItem feed (feed_item post))) as [-> ->]. simpl.
    by rewrite <- (assoc_L (++)).
Qed.

Lemma generateFeed_Ok fs posts :
  getPosts fs = Ok posts →
  ∃ feed,
    generateFeed fs = Ok feed ∧
    options feed = feedOptions ∧
    items feed = feed_item <$> posts.
Proof.
  intros Hget. unfold generateFeed. rewrite Hget. simpl. eexists. split; [done|].
  apply (addItem_loop (new_Feed feedOptions) posts).
Qed.

Lemma generateFeed_inv fs feed :
  generateFeed fs = Ok feed →
  ∃ posts,
    getPosts fs = Ok posts ∧
    options feed = feedOptions ∧
    items feed = feed_item <$> posts.
Proof.
  intros Hfeed. destruct (getPosts fs) as [posts|e] eqn:Hget.
  - destruct (generateFeed_Ok _ _ Hget) as (feed' & Hfeed' & ? & ?).
    rewrite Hfeed in Hfeed'. injection Hfeed' as <-. by exists posts.
  - by rewrite (generateFeed_Err _ _ Hget) in Hfeed.
Qed.

(** Every record that [getPosts] returns was built from a directory of the
    root and the front-matter of its document, and every such record is
    returned. *)
Lemma holds_functional fs dir data data' :
  holds fs dir data → holds fs dir data' → data = data'.
Proof.
  intros (? & text & _ & _ & Hread & Hdata) (? & text' & _ & _ & Hread' & Hdata').
  congruence.
Qed.

Lemma elem_of_getPosts fs posts post :
  getPosts fs = Ok posts →
  post ∈ posts ↔ ∃ dir data, holds fs dir data ∧ post = make_post dir data.
Proof.
  intros (entries & datas & Hdir & Hall & Hperm)%getPosts_Permutation.
  rewrite Hperm. split.
  - intros (k & Hk)%list_elem_of_lookup.
    apply lookup_zip_with_Some in Hk as (dir & data & -> & Hd & Hdata).
    exists dir, data. split; [|done]. by eapply Forall2_lookup_lr.
  - intros (dir & data & Hholds & ->).
    destruct Hholds as (entries' & text & Hdir' & Hin & Hread & Hdata).
    rewrite Hdir in Hdir'. injection Hdir' as <-.
    assert (holds fs dir data) as Hholds by (by exists entries, text).
    apply list_elem_of_lookup in Hin as (k & Hk).
    destruct (Forall2_lookup_l _ _ _ _ _ Hall Hk) as (data' & Hk' & Hholds').
    assert (data' = data) as -> by (by eapply holds_functional).
    apply list_elem_of_lookup. exists k.
    apply lookup_zip_with_Some. by exists dir, data.
Qed.

Lemma make_post_slug dir data :
  get (make_post dir data) "slug" =
    match data !! "slug" with
    | Some s => JSString s
    | None => JSString dir
    end.
Proof.
  unfold get, make_post. rewrite lookup_union.
  destruct (data !! "slug") as [s|]; simpl.
  - by rewrite lookup_singleton_eq.
  - by rewrite lookup_singleton_eq.
Qed.

Lemma make_post_field dir data k :
  k ≠ "slug" →
  get (make_post dir data) k = get data k.
Proof.
  intros Hk. unfold get, make_post. rewrite lookup_union.
  rewrite lookup_singleton_ne by done. by destruct (data !! k).
Qed.

(** C3. The feed that [generateFeed] builds from the loaded posts has one
    item per post, at the post's position, no item being merged, dropped or
    cut off; the item's title is the post's title, its description the post's
    spoiler, its id and its link the site's base URL followed by the slug and
    a slash, and its date the parsed date of the post. *)
Theorem generateFeed_items fs posts :
  getPosts fs = Ok posts →
  ∃ feed,
    generateFeed fs = Ok feed ∧
    length (items feed) = length posts ∧
    ∀ i post, posts !! i = Some post →
      ∃ item slug,
        items feed !! i = Some item ∧
        Item.title item = get post "title" ∧
        Item.description item = get post "spoiler" ∧
        get post "slug" = JSString slug ∧
        Item.id item = site_url +:+ slug +:+ "/" ∧
        Item.link item = site_url +:+ slug +:+ "/" ∧
        (∀ date, get post "date" = JSString date →
           Item.date item = Date_parse (JSString date)) ∧
        (get post "date" = undefined → Item.date item = NaN).
Proof.
  intros Hget. destruct (generateFeed_Ok _ _ Hget) as (feed & Hfeed & _ & Hitems).
  exists feed. split; [done|]. rewrite Hitems. split; [by rewrite length_fmap|].
  intros i post Hi.
  assert (∃ slug, get post "slug" = JSString slug) as [slug Hslug].
  { assert (post ∈ posts) as Hin by (apply list_elem_of_lookup; eauto).
    apply (elem_of_getPosts _ _ _ Hget) in Hin as (dir & data & _ & ->).
    rewrite make_post_slug. destruct (data !! "slug"); eauto. }
  exists (feed_item post), slug. rewrite list_lookup_fmap, Hi. simpl.
  rewrite Hslug. simpl. repeat (split; [done|]). split.
  - intros date ->. done.
  - intros ->. done.
Qed.

(** C8. The feed links in the options of the feed that [generateFeed]
    builds are the site's base URL followed by the name of the format and
    ".xml". *)
Theorem generateFeed_feedLinks fs feed :
  generateFeed fs = Ok feed →
  FeedLinks.atom (FeedOptions.feedLinks (options feed)) = site_url +:+ "atom.xml" ∧
  FeedLinks.rss (FeedOptions.feedLinks (options feed)) = site_url +:+ "rss.xml" ∧
  FeedLinks.atom (FeedOptions.feedLinks (options feed)) =
    "https://github.psriram.com/atom.xml" ∧
  FeedLinks.rss (FeedOptions.feedLinks (options feed)) =
    "https://github.psriram.com/rss.xml".
Proof.
  intros (posts & _ & -> & _)%generateFeed_inv. done.
Qed.

(** *** Which posts are loaded *)

Lemma subdirectories_nil entries :
  (∀ entry, entry ∈ entries → isDirectory entry = false) →
  subdirectories entries = [].
Proof.
  unfold subdirectories. induction entries as [|entry entries IH]; intros Hnone; [done|].
  rewrite filter_cons_False.
  - apply IH. intros entry' Hin. apply Hnone. by right.
  - rewrite (Hnone entry) by (by left). by intros [].
Qed.

Lemma Forall2_choice {A B} (P : A → B → Prop) l :
  (∀ x, x ∈ l → ∃ y, P x y) → ∃ k, Forall2 P l k.
Proof.
  induction l as [|x l IH]; intros Hall.
  - exists []. constructor.
  - destruct (Hall x) as [y Hy]; [by left|].
    destruct IH as [k Hk]; [intros x' Hin; apply Hall; by right|].
    exists (y :: k). by constructor.
Qed.

(** The load succeeds as soon as the root is listed and every document is
    read and parsed, whatever its front-matter holds. *)
Lemma getPosts_total fs entries :
  readdir fs "./public/" = Ok entries →
  (∀ dir, dir ∈ subdirectories entries →
     ∃ text data, readFile fs (index_md dir) = Ok text ∧
                  matter (JSString text) = Ok data) →
  ∃ posts, getPosts fs = Ok posts.
Proof.
  intros Hdir Hall.
  destruct (Forall2_choice
    (λ dir text, readFile fs (index_md dir) = Ok text ∧
                 ∃ data, matter (JSString text) = Ok data)
    (subdirectories entries)) as [texts Htexts].
  { intros dir (text & data & ? & ?)%Hall. exists text. eauto. }
  destruct (Forall2_choice (λ text data, matter (JSString text) = Ok data) texts)
    as [datas Hdatas].
  { intros text (k & Hk)%list_elem_of_lookup.
    destruct (Forall2_lookup_r _ _ _ _ _ Htexts Hk) as (dir & _ & _ & Hdata). done. }
  eexists. apply getPosts_Ok. exists entries, texts, datas.
  split; [done|]. split; [|done].
  eapply Forall2_impl; [done|]. by intros dir text [? _].
Qed.

(** C5. Over a posts root without sub-directories, [getPosts] resolves with
    the empty list and [generateFeed] with a feed that has no item. *)
Theorem getPosts_empty fs entries :
  readdir fs "./public/" = Ok entries →
  (∀ entry, entry ∈ entries → isDirectory entry = false) →
  getPosts fs = Ok [] ∧
  ∃ feed, generateFeed fs = Ok feed ∧ items feed = [].
Proof.
  intros Hdir Hnone%subdirectories_nil.
  assert (getPosts fs = Ok []) as Hget.
  { apply getPosts_Ok. exists entries, [], []. rewrite Hnone.
    split; [done|]. split; [constructor|]. split; [constructor|]. simpl.
    symmetry. apply Permutation_nil_r, sort_permutation. }
  split; [done|].
  destruct (generateFeed_Ok _ _ Hget) as (feed & Hfeed & _ & Hitems).
  by exists feed.
Qed.

(** C6. No field of the front-matter is required for the load to succeed:
    when the root is listed and every document is read and parsed,
    [getPosts] and [generateFeed] resolve, the record of every directory is
    among the posts and its item in the feed, and a title, spoiler or date
    that the front-matter lacks is [undefined] in the record and [undefined],
    respectively an invalid date, in the item. *)
Theorem getPosts_missing_fields fs entries :
  readdir fs "./public/" = Ok entries →
  (∀ dir, dir ∈ subdirectories entries →
     ∃ text data, readFile fs (index_md dir) = Ok text ∧
                  matter (JSString text) = Ok data) →
  ∃ posts feed,
    getPosts fs = Ok posts ∧
    generateFeed fs = Ok feed ∧
    ∀ dir data, holds fs dir data →
      make_post dir data ∈ posts ∧
      feed_item (make_post dir data) ∈ items feed ∧
      (data !! "title" = None →
         get (make_post dir data) "title" = undefined ∧
         Item.title (feed_item (make_post dir data)) = undefined) ∧
      (data !! "spoiler" = None →
         get (make_post dir data) "spoiler" = undefined ∧
         Item.description (feed_item (make_post dir data)) = undefined) ∧
      (data !! "date" = None →
         get (make_post dir data) "date" = undefined ∧
         Item.date (feed_item (make_post dir data)) = NaN).
Proof.
  intros Hdir Hall. destruct (getPosts_total _ _ Hdir Hall) as [posts Hget].
  destruct (generateFeed_Ok _ _ Hget) as (feed & Hfeed & _ & Hitems).
  exists posts, feed. split; [done|]. split; [done|].
  intros dir data Hholds.
  assert (make_post dir data ∈ posts) as Hin.
  { apply (elem_of_getPosts _ _ _ Hget). eauto. }
  split; [done|]. split.
  { rewrite Hitems. apply list_elem_of_fmap. eauto. }
  assert (∀ k, k ≠ "slug" → data !! k = None → get (make_post dir data) k = undefined)
    as Hfield.
  { intros k Hk Hnone. rewrite make_post_field by done. unfold get. by rewrite Hnone. }
  split; [|split]; intros Hnone; simpl; rewrite Hfield by done; done.
Qed.

(** C10. The list that [getPosts] returns holds one record per
    sub-directory of the root: it is as long as the list of the entries that
    are directories, and it is a permutation of the records built from the
    directories and the front-matter of their documents. *)
Theorem getPosts_one_per_directory fs entries posts :
  readdir fs "./public/" = Ok entries →
  getPosts fs = Ok posts →
  length posts = length (filter (λ entry, isDirectory entry) entries) ∧
  ∃ datas,
    Forall2 (λ dir data, holds fs dir data) (subdirectories entries) datas ∧
    posts ≡ₚ zip_with make_post (subdirectories entries) datas.
Proof.
  intros Hdir (entries' & datas & Hdir' & Hall & Hperm)%getPosts_Permutation.
  rewrite Hdir in Hdir'. injection Hdir' as <-. split; [|by exists datas].
  rewrite Hperm, length_zip_with, <- (Forall2_length _ _ _ Hall).
  unfold subdirectories. rewrite length_fmap. lia.
Qed.

(** *** Slugs *)

Lemma slugs_of_directories dirs datas :
  Forall2 (λ (dir : string) (data : JSObject), data !! "slug" = None) dirs datas →
  (λ p, get p "slug") <$> zip_with make_post dirs datas = JSString <$> dirs.
Proof.
  induction 1 as [|dir data dirs datas Hnone _ IH]; [done|].
  cbn [zip_with]. by rewrite !fmap_cons, make_post_slug, Hnone, IH.
Qed.

(** The slug of a loaded record is the [slug] of the front-matter when it has
    one, and the name of the directory otherwise. *)
Lemma getPosts_slug fs posts :
  getPosts fs = Ok posts →
  (∀ post, post ∈ posts ↔ ∃ dir data, holds fs dir data ∧ post = make_post dir data) ∧
  (∀ dir data, holds fs dir data →
     (∀ s, data !! "slug" = Some s → get (make_post dir data) "slug" = JSString s) ∧
     (data !! "slug" = None → get (make_post dir data) "slug" = JSString dir)).
Proof.
  intros Hget. split.
  - intros post. by apply elem_of_getPosts.
  - intros dir data _. rewrite make_post_slug. split; [intros s|]; by intros ->.
Qed.

(** C7, amended. Over a posts root whose sub-directories have pairwise
    distinct names and whose documents define no [slug] in their
    front-matter, the slugs of the posts that [getPosts] returns are pairwise
    distinct, and the slug of each post is the name of its directory. *)
Theorem slugs_distinct fs entries posts :
  readdir fs "./public/" = Ok entries →
  NoDup (subdirectories entries) →
  (∀ dir data, holds fs dir data → data !! "slug" = None) →
  getPosts fs = Ok posts →
  NoDup ((λ p, get p "slug") <$> posts) ∧
  (λ p, get p "slug") <$> posts ≡ₚ JSString <$> subdirectories entries ∧
  ∀ post, post ∈ posts →
    ∃ dir data, holds fs dir data ∧ post = make_post dir data ∧
                get post "slug" = JSString dir.
Proof.
  intros Hdir Hnodup Hnone Hget.
  destruct (getPosts_Permutation _ _ Hget) as (entries' & datas & Hdir' & Hall & Hperm).
  rewrite Hdir in Hdir'. injection Hdir' as <-.
  assert ((λ p, get p "slug") <$> posts ≡ₚ JSString <$> subdirectories entries)
    as Hslugs.
  { rewrite Hperm, slugs_of_directories; [done|].
    eapply Forall2_impl; [done|]. apply Hnone. }
  split; [|split; [done|]].
  - rewrite Hslugs. apply NoDup_fmap_2; [|done]. by intros ? ? [= ->].
  - intros post (dir & data & Hholds & ->)%(elem_of_getPosts _ _ _ Hget).
    exists dir, data. split; [done|]. split; [done|].
    by rewrite make_post_slug, (Hnone _ _ Hholds).
Qed.

(** ** Further properties of the loader and of the feed *)

(** *** How the load fails *)



Lemma read_posts_Err dirs texts before k text e :
  length dirs = length texts →
  texts !! k = Some text →
  matter (JSString text) = Err e →
  (∀ j text', (j < k)%nat → texts !! j = Some text' →
     ∃ data, matter (JSString text') = Ok data) →
  Array_map (λ slug i,
      let fileContent := Array_get (before ++ texts) i in
      data ← matter fileContent;
      Ok (make_post slug data)) (length before) dirs = Err e.
Proof.
  revert texts before k.
  induction dirs as [|d dirs IH]; intros [|text0 texts] before k Hlen Hk Hm Hbefore;
    simplify_eq/=.
  assert (Array_get (before ++ text0 :: texts) (length before) = JSString text0)
    as -> by (unfold Array_get; by rewrite list_lookup_middle).
  destruct k as [|k]; simpl in Hk.
  - injection Hk as ->. by rewrite Hm.
  - destruct (Hbefore 0%nat text0) as [data ->]; [lia|done|]. simpl.
    specialize (IH texts (before ++ [text0]) k).
    rewrite <- (assoc_L (++)) in IH. simpl in IH.
    rewrite length_app in IH. simpl in IH. rewrite Nat.add_1_r in IH.
    rewrite IH; [done..|].
    intros j text' Hj Hj'. apply (Hbefore (S j)); [lia|done].
Qed.

(** X2. When every document is read and one of them has front-matter that
    [matter] rejects, [getPosts] rejects with the error of the first such
    document in the order of the directory listing, and so does
    [generateFeed]. *)
Theorem getPosts_parse_error fs entries texts k text e :
  readdir fs "./public/" = Ok entries →
  Forall2 (λ d text, readFile fs (index_md d) = Ok text)
    (subdirectories entries) texts →
  texts !! k = Some text →
  matter (JSString text) = Err e →
  (∀ j text', (j < k)%nat → texts !! j = Some text' →
     ∃ data, matter (JSString text') = Ok data) →
  getPosts fs = Err e ∧ generateFeed fs = Err e.
Proof.
  intros Hdir Hread Hk Hm Hbefore.
  assert (getPosts fs = Err e) as Hget.
  { unfold getPosts. rewrite Hdir. simpl. fold (subdirectories entries).
    assert (Promise_all ((λ dir, readFile fs ("./public/" +:+ dir +:+ "/index.md"))
              <$> subdirectories entries) = Ok texts) as ->
      by (by apply Promise_all_fmap_Ok).
    simpl.
    pose proof (read_posts_Err (subdirectories entries) texts [] k text e
                  (Forall2_length _ _ _ Hread) Hk Hm Hbefore) as Hmap.
    simpl in Hmap. by rewrite Hmap. }
  split; [done|]. by apply generateFeed_Err.
Qed.



(** *** The order of the posts and of the feed *)

Lemma getPosts_Sorted fs posts :
  getPosts fs = Ok posts →
  (∀ p, p ∈ posts → ∃ t, Date_parse (get p "date") = Finite t) →
  Sorted not_older posts.
Proof.
  intros Hget Hparse.
  destruct (getPosts_inv _ _ Hget) as (entries & datas & _ & _ & Hposts).
  rewrite Hposts. apply sort_ordered; [apply not_older_transitive|].
  apply compare_agrees. intros p Hin. apply Hparse.
  by rewrite Hposts, sort_permutation.
Qed.

(** X4. The feed is newest first: when the date of every loaded post is a
    string that parses, the date of each item of the feed is a timestamp at
    least as large as that of the item after it. *)
Theorem generateFeed_newest_first fs posts feed :
  getPosts fs = Ok posts →
  generateFeed fs = Ok feed →
  (∀ post, post ∈ posts →
     ∃ s t, get post "date" = JSString s ∧ Date_parse (JSString s) = Finite t) →
  ∀ i x y, items feed !! i = Some x → items feed !! S i = Some y →
    ∃ tx ty, Item.date x = Finite tx ∧ Item.date y = Finite ty ∧ (tx >= ty)%Z.
Proof.
  intros Hget Hfeed Hdates i x y Hx Hy.
  destruct (generateFeed_Ok _ _ Hget) as (feed' & Hfeed' & _ & Hitems).
  rewrite Hfeed in Hfeed'. injection Hfeed' as <-.
  rewrite Hitems, list_lookup_fmap in Hx. rewrite Hitems, list_lookup_fmap in Hy.
  destruct (posts !! i) as [p|] eqn:Hp; [|done].
  destruct (posts !! S i) as [q|] eqn:Hq; [|done].
  injection Hx as <-. injection Hy as <-.
  assert (not_older p q) as (tp & tq & Htp & Htq & Hge).
  { eapply Sorted_lookup_next; [|done..]. apply (getPosts_Sorted fs); [done|].
    intros p' (s & t & -> & Ht)%Hdates. eauto. }
  destruct (Hdates p) as (sp & ? & Hsp & _); [apply list_elem_of_lookup; eauto|].
  destruct (Hdates q) as (sq & ? & Hsq & _); [apply list_elem_of_lookup; eauto|].
  exists tp, tq. simpl. rewrite Hsp in *. rewrite Hsq in *. done.
Qed.

Lemma Forall2_functional {A B} (P : A → B → Prop) l k k' :
  (∀ x y y', P x y → P x y' → y = y') →
  Forall2 P l k → Forall2 P l k' → k = k'.
Proof.
  intros Hfun Hk. revert k'.
  induction Hk as [|x y l k Hxy _ IH]; intros k' Hk'; inversion Hk'; subst; [done|].
  f_equal; [by eapply Hfun|by apply IH].
Qed.

Lemma zip_with_Permutation {A B C} (P : A → B → Prop) (f : A → B → C) l l' k k' :
  (∀ x y y', P x y → P x y' → y = y') →
  l ≡ₚ l' → Forall2 P l k → Forall2 P l' k' →
  zip_with f l k ≡ₚ zip_with f l' k'.
Proof.
  intros Hfun Hperm. revert k k'.
  induction Hperm as [|x l l' Hperm IH|x y l|l l' l'' Hperm IH Hperm' IH'];
    intros k k' Hk Hk'.
  - inversion Hk. inversion Hk'. done.
  - inversion Hk as [|? a ? k0 Ha Hk0]. inversion Hk' as [|? a' ? k0' Ha' Hk0']. subst.
    simpl. rewrite (Hfun _ _ _ Ha Ha'). apply Permutation_skip. by apply IH.
  - inversion Hk as [|? b ? k1 Hb Hk1]. inversion Hk1 as [|? a ? k0 Ha Hk0].
    inversion Hk' as [|? a' ? k1' Ha' Hk1']. inversion Hk1' as [|? b' ? k0' Hb' Hk0'].
    subst. simpl.
    rewrite (Hfun _ _ _ Ha Ha'), (Hfun _ _ _ Hb Hb'),
      (Forall2_functional _ _ _ _ Hfun Hk0 Hk0').
    apply Permutation_swap.
  - destruct (Forall2_choice P l') as [k'' Hk''].
    { intros x (i & Hi)%list_elem_of_lookup.
      assert (x ∈ l) as (j & Hj)%list_elem_of_lookup
        by (rewrite Hperm; apply list_elem_of_lookup; eauto).
      destruct (Forall2_lookup_l _ _ _ _ _ Hk Hj) as (y & _ & Hy). eauto. }
    etrans; [by apply IH|by apply IH'].
Qed.

(** X6. When the dates of the loaded posts parse to timestamps that differ
    from post to post, the order in which the root lists its sub-directories
    does not matter: over the same documents, any two listings of the same
    sub-directories load the same list of posts. *)
Theorem getPosts_order_determined fs fs' entries entries' posts posts' :
  readdir fs "./public/" = Ok entries →
  readdir fs' "./public/" = Ok entries' →
  subdirectories entries ≡ₚ subdirectories entries' →
  (∀ d, d ∈ subdirectories entries →
     readFile fs (index_md d) = readFile fs' (index_md d)) →
  getPosts fs = Ok posts →
  getPosts fs' = Ok posts' →
  (∀ p, p ∈ posts → ∃ t, Date_parse (get p "date") = Finite t) →
  (∀ p q, p ∈ posts → q ∈ posts →
     Date_parse (get p "date") = Date_parse (get q "date") → p = q) →
  posts' = posts.
Proof.
  intros Hdir Hdir' Hsub Hfiles Hget Hget' Hparse Hdistinct.
  destruct (getPosts_Permutation _ _ Hget) as (entries0 & datas & Hdir0 & Hall & Hperm).
  rewrite Hdir in Hdir0. injection Hdir0 as <-.
  destruct (getPosts_Permutation _ _ Hget')
    as (entries0 & datas' & Hdir0 & Hall' & Hperm').
  rewrite Hdir' in Hdir0. injection Hdir0 as <-.
  set (P := λ d data, ∃ text, readFile fs (index_md d) = Ok text ∧
                              matter (JSString text) = Ok data).
  assert (posts ≡ₚ posts') as Hsame.
  { rewrite Hperm, Hperm'. apply (zip_with_Permutation P); [|done| |].
    - intros d data data' (text & Htext & Hdata) (text' & Htext' & Hdata'). congruence.
    - eapply Forall2_impl; [done|].
      intros d data (? & text & _ & _ & Htext & Hdata). by exists text.
    - eapply Forall2_impl; [done|].
      intros d data (entries0 & text & Hdir0 & Hin & Htext & Hdata).
      rewrite Hdir' in Hdir0. injection Hdir0 as <-.
      exists text. split; [|done]. rewrite Hfiles; [done|]. by rewrite Hsub. }
  symmetry. apply (Sorted_unique_strong not_older (Transitive0 := not_older_transitive)).
  - intros p q Hp Hq (tp & tq & Htp & Htq & Hge) (tq' & tp' & Htq' & Htp' & Hge').
    rewrite <- Hsame in Hq. apply Hdistinct; [done..|].
    rewrite Htp in Htp'. rewrite Htq in Htq'. simplify_eq. rewrite Htp, Htq.
    f_equal. lia.
  - by apply (getPosts_Sorted fs).
  - apply (getPosts_Sorted fs'); [done|]. intros p Hp. apply Hparse. by rewrite Hsame.
  - done.
Qed.

(** *** The records and the items *)

Lemma append_slash_inj x y : x +:+ "/" = y +:+ "/" → x = y.
Proof.
  revert y. induction x as [|a x IH]; intros [|b y]; simpl; intros Heq.
  - done.
  - injection Heq as -> Heq. by destruct y.
  - injection Heq as -> Heq. by destruct x.
  - injection Heq as -> Heq. f_equal. by apply IH.
Qed.

(** X5. Over a root whose sub-directories have distinct names and whose
    documents define no [slug], the ids of the feed's items are pairwise
    distinct, they are the site's base URL followed by the name of a
    sub-directory and a slash, one for each sub-directory, and every item's
    link is its id. *)
Theorem generateFeed_ids_distinct fs entries feed :
  readdir fs "./public/" = Ok entries →
  NoDup (subdirectories entries) →
  (∀ d data, holds fs d data → data !! "slug" = None) →
  generateFeed fs = Ok feed →
  NoDup (Item.id <$> items feed) ∧
  Item.id <$> items feed
    ≡ₚ (λ d, site_url +:+ d +:+ "/") <$> subdirectories entries ∧
  Item.link <$> items feed = Item.id <$> items feed.
Proof.
  intros Hdir Hnodup Hnone (posts & Hget & _ & Hitems)%generateFeed_inv.
  destruct (getPosts_Permutation _ _ Hget) as (entries' & datas & Hdir' & Hall & Hperm).
  rewrite Hdir in Hdir'. injection Hdir' as <-.
  assert (Item.id <$> items feed
            ≡ₚ (λ d, site_url +:+ d +:+ "/") <$> subdirectories entries) as Hids.
  { rewrite Hitems, <- list_fmap_compose.
    change (Item.id ∘ feed_item)
      with ((λ v, site_url +:+ ToString v +:+ "/") ∘ (λ p : JSObject, get p "slug")).
    rewrite list_fmap_compose, Hperm, slugs_of_directories.
    - by rewrite <- list_fmap_compose.
    - eapply Forall2_impl; [done|]. apply Hnone. }
  split; [|split; [done|]].
  - rewrite Hids. apply NoDup_fmap_2; [|done].
    intros d d' Heq. by apply (inj (String.app site_url)), append_slash_inj in Heq.
  - rewrite Hitems, <- !list_fmap_compose. done.
Qed.


(** X9. The loop of [generateFeed] leaves the options alone: whatever the
    posts, the feed carries the options it was created with; its id and its
    link are the base of the site's URLs of the root layout, its feed links
    are the feeds that the pages advertise, and its favicon URL has two
    slashes before the file name, the base URL ending in one and the suffix
    starting with one. *)
Theorem generateFeed_options fs feed :
  generateFeed fs = Ok feed →
  options feed = feedOptions ∧
  FeedOptions.id (options feed) = layout.metadataBase ∧
  FeedOptions.link (options feed) = layout.metadataBase ∧
  Author.link (FeedOptions.author (options feed)) = layout.metadataBase ∧
  FeedLinks.atom (FeedOptions.feedLinks (options feed)) = alternates.atom_xml ∧
  FeedLinks.rss (FeedOptions.feedLinks (options feed)) = alternates.rss_xml ∧
  FeedOptions.favicon (options feed) = "https://github.psriram.com//icon.jpeg".
Proof.
  intros (posts & _ & -> & _)%generateFeed_inv. done.
Qed.

(** X10. The comparator answers [-1] for a post compared with itself, so it
    never reports two posts as equal; on posts whose dates parse to
    different timestamps it is antisymmetric, and on posts whose dates parse
    a negative answer is transitive. *)
Theorem compare_order :
  (∀ a, compare a a = -1) ∧
  (∀ a b ta tb,
     Date_parse (get a "date") = Finite ta →
     Date_parse (get b "date") = Finite tb →
     ta ≠ tb → compare a b = - compare b a) ∧
  (∀ a b c ta tb tc,
     Date_parse (get a "date") = Finite ta →
     Date_parse (get b "date") = Finite tb →
     Date_parse (get c "date") = Finite tc →
     compare a b < 0 → compare b c < 0 → compare a c < 0).
Proof.
  split; [|split].
  - intros a. unfold compare. destruct (Date_parse (get a "date")); simpl; [done|].
    case_bool_decide; [lia|done].
  - intros a b ta tb Ha Hb Hne. unfold compare. rewrite Ha, Hb. simpl.
    repeat case_bool_decide; lia.
  - intros a b c ta tb tc Ha Hb Hc. unfold compare. rewrite Ha, Hb, Hc. simpl.
    repeat case_bool_decide; lia.
Qed.

End Blog.

(** ** The fixtures

    The insertion sort meets what the engine's sort is relied on for. *)

Lemma insert_Permutation {A} (compare : A → A → Z) x l :
  insert compare x l ≡ₚ x :: l.
Proof.
  induction l as [|y l IH]; simpl; [done|].
  destruct (compare x y <? 0); [done|]. rewrite IH. apply Permutation_swap.
Qed.

Lemma insertion_sort_permutation A (compare : A → A → Z) l :
  insertion_sort compare l ≡ₚ l.
Proof.
  unfold insertion_sort.
  assert (∀ sorted, foldl (λ sorted x, insert compare x sorted) sorted l
            ≡ₚ l ++ sorted) as Hloop.
  { induction l as [|x l IH]; intros sorted; simpl; [done|].
    rewrite IH, insert_Permutation. by rewrite Permutation_middle. }
  by rewrite Hloop, app_nil_r.
Qed.

Lemma agrees_subseteq {A} (compare : A → A → Z) (R : relation A) l k :
  l ⊆ k → agrees compare R k → agrees compare R l.
Proof. intros Hsub Hagrees a b Ha Hb. apply Hagrees; by apply Hsub. Qed.

Lemma insert_Sorted {A} (compare : A → A → Z) (R : relation A) x l :
  agrees compare R (x :: l) → Sorted R l → Sorted R (insert compare x l).
Proof.
  intros Hagrees Hsorted.
  induction Hsorted as [|y l Hsorted IH Hhd]; simpl.
  - by repeat constructor.
  - destruct (Hagrees x y) as (Hneg & Hpos & Hzero); [by left|by right; left|].
    destruct (Z.ltb_spec (compare x y) 0) as [Hlt|Hge].
    + constructor; [by constructor|]. constructor. by apply Hneg.
    + assert (R y x) as Hyx.
      { destruct (decide (compare x y = 0)) as [Heq|Hne];
          [by apply Hzero|apply Hpos; lia]. }
      constructor.
      * apply IH. intros a b Ha Hb. apply Hagrees.
        -- apply elem_of_cons in Ha as [->|Ha]; [by left|by do 2 right].
        -- apply elem_of_cons in Hb as [->|Hb]; [by left|by do 2 right].
      * destruct Hhd as [|z l' Hyz]; simpl; [by constructor|].
        destruct (compare x z <? 0); by constructor.
Qed.

Lemma insertion_sort_ordered A (compare : A → A → Z) (R : relation A) l :
  Transitive R → agrees compare R l → Sorted R (insertion_sort compare l).
Proof.
  intros _ Hagrees. unfold insertion_sort.
  assert (∀ sorted, Sorted R sorted → agrees compare R (l ++ sorted) →
            Sorted R (foldl (λ sorted x, insert compare x sorted) sorted l)) as Hloop.
  { clear Hagrees. induction l as [|x l IH]; intros sorted Hsorted Hagrees; simpl; [done|].
    apply IH.
    - apply insert_Sorted; [|done]. eapply agrees_subseteq; [|done].
      intros a Ha. simpl. rewrite elem_of_cons, elem_of_app.
      apply elem_of_cons in Ha. tauto.
    - eapply agrees_subseteq; [|done].
      intros a Ha. simpl. rewrite elem_of_cons, elem_of_app.
      rewrite elem_of_app, insert_Permutation, elem_of_cons in Ha. tauto. }
  apply Hloop; [constructor|]. by rewrite app_nil_r.
Qed.

(** What the fixtures load. *)

Lemma fs_two_loaded :
  getPosts fixture_Date_parse_other fixture_matter (@insertion_sort) fs_two
  = Ok [new_post; old_post].
Proof. vm_compute. reflexivity. Defined.


Lemma fs_same_slug_loaded :
  getPosts fixture_Date_parse_other fixture_matter (@insertion_sort) fs_same_slug
  = Ok [second_post; first_post].
Proof. vm_compute. reflexivity. Defined.

Lemma fs_same_slug_clash :
  NoDup (subdirectories [dir "a"; dir "b"]) ∧
  (λ p, get p "slug") <$> [second_post; first_post] = [JSString "x"; JSString "x"] ∧
  ¬ NoDup ((λ p, get p "slug") <$> [second_post; first_post]) ∧
  ∀ post, post ∈ [second_post; first_post] →
    ∀ d, d ∈ subdirectories [dir "a"; dir "b"] → get post "slug" ≠ JSString d.
Proof.
  split; [|split; [|split]].
  - apply (bool_decide_unpack _). vm_compute. exact I.
  - vm_compute. reflexivity.
  - assert ((λ p, get p "slug") <$> [second_post; first_post]
            = [JSString "x"; JSString "x"]) as -> by (vm_compute; reflexivity).
    intros [Hnotin _]%NoDup_cons. apply Hnotin. by left.
  - intros post Hpost d Hdir.
    assert (get post "slug" = JSString "x") as ->.
    { apply elem_of_cons in Hpost as [->|Hpost]; [vm_compute; reflexivity|].
      apply elem_of_cons in Hpost as [->|Hpost]; [vm_compute; reflexivity|].
      by apply elem_of_nil in Hpost. }
    apply elem_of_cons in Hdir as [->|Hdir]; [done|].
    apply elem_of_cons in Hdir as [->|Hdir]; [done|].
    by apply elem_of_nil in Hdir.
Qed.

(** C7, as stated, fails: the directories "a" and "b" have distinct names,
    both documents name the slug "x", and both loaded posts have the slug
    "x", which is the name of neither directory. *)
Lemma slugs_distinct_counterexample :
  readdir fs_same_slug "./public/" = Ok [dir "a"; dir "b"] ∧
  NoDup (subdirectories [dir "a"; dir "b"]) ∧
  getPosts fixture_Date_parse_other fixture_matter (@insertion_sort) fs_same_slug
    = Ok [second_post; first_post] ∧
  (λ p, get p "slug") <$> [second_post; first_post] = [JSString "x"; JSString "x"] ∧
  ¬ NoDup ((λ p, get p "slug") <$> [second_post; first_post]) ∧
  ¬ ((λ p, get p "slug") <$> [second_post; first_post]
       ≡ₚ JSString <$> subdirectories [dir "a"; dir "b"]).
Proof.
  destruct fs_same_slug_clash as (Hnodup & Hslugs & Hclash & Hnames).
  split; [reflexivity|]. split; [done|]. split; [apply fs_same_slug_loaded|].
  split; [done|]. split; [done|].
  intros Hperm. apply (Hnames second_post (list_elem_of_here _ _) "a").
  - by left.
  - assert (JSString "a" ∈ (λ p, get p "slug") <$> [second_post; first_post]) as Hin.
    { rewrite Hperm. by left. }
    rewrite Hslugs in Hin.
    apply elem_of_cons in Hin as [[=]|Hin].
    apply elem_of_cons in Hin as [[=]|Hin].
    by apply elem_of_nil in Hin.
Qed.

(** C9. In every record that [getPosts] returns, a [slug] of the
    front-matter takes the place of the directory name, which is the slug
    only of a record whose front-matter has no [slug]; and this can break
    the uniqueness of slugs and their derivation from directory names: two
    directories of distinct names load as two posts of the same slug, which
    is the name of neither. *)
Theorem front_matter_slug_overrides :
  (∀ Date_parse_other matter (sort : ∀ A : Type, (A → A → Z) → list A → list A),
     (∀ A (compare : A → A → Z) l, sort A compare l ≡ₚ l) →
     ∀ fs posts,
       getPosts Date_parse_other matter sort fs = Ok posts →
       (∀ post, post ∈ posts ↔
          ∃ dir data, holds matter fs dir data ∧ post = make_post dir data) ∧
       (∀ dir data, holds matter fs dir data →
          (∀ s, data !! "slug" = Some s →
             get (make_post dir data) "slug" = JSString s) ∧
          (data !! "slug" = None →
             get (make_post dir data) "slug" = JSString dir))) ∧
  (∃ entries posts,
     readdir fs_same_slug "./public/" = Ok entries ∧
     NoDup (subdirectories entries) ∧
     getPosts fixture_Date_parse_other fixture_matter (@insertion_sort) fs_same_slug
       = Ok posts ∧
     ¬ NoDup ((λ p, get p "slug") <$> posts) ∧
     ∀ post, post ∈ posts →
       ∀ d, d ∈ subdirectories entries → get post "slug" ≠ JSString d).
Proof.
  split.
  - intros Date_parse_other matter sort Hperm fs posts Hget.
    by eapply getPosts_slug.
  - destruct fs_same_slug_clash as (Hnodup & Hslugs & Hclash & Hnames).
    exists [dir "a"; dir "b"], [second_post; first_post].
    split; [reflexivity|]. split; [done|]. split; [apply fs_same_slug_loaded|].
    by split.
Qed.

(** ** The theorems at the fixtures *)

Lemma getPosts_sorted_by_date_witness :
  getPosts fixture_Date_parse_other fixture_matter (@insertion_sort) fs_two
    = Ok [new_post; old_post] ∧
  (∀ i p q, [new_post; old_post] !! i = Some p → [new_post; old_post] !! S i = Some q →
     ∃ tp tq, Date_parse fixture_Date_parse_other (get p "date") = Finite tp ∧
              Date_parse fixture_Date_parse_other (get q "date") = Finite tq ∧
              (tp >= tq)%Z) ∧
  (λ p, get p "slug") <$> [new_post; old_post] = [JSString "new"; JSString "old"].
Proof.
  split; [apply fs_two_loaded|].
  destruct (getPosts_sorted_by_date fixture_Date_parse_other fixture_matter
              (@insertion_sort) insertion_sort_permutation insertion_sort_ordered
              fs_two [new_post; old_post] fs_two_loaded) as [Hsorted Htwo].
  split.
  - apply Hsorted. intros p Hp.
    apply elem_of_cons in Hp as [->|Hp]; [eexists; vm_compute; reflexivity|].
    apply elem_of_cons in Hp as [->|Hp]; [eexists; vm_compute; reflexivity|].
    by apply elem_of_nil in Hp.
  - apply Htwo. vm_compute. apply perm_swap.
Defined.

Lemma getPosts_read_error_witness :
  ∃ dir' e',
    dir' ∈ subdirectories [dir "old"; dir "lost"; dir "new"] ∧
    readFile fs_lost (index_md dir') = Err e' ∧
    getPosts fixture_Date_parse_other fixture_matter (@insertion_sort) fs_lost = Err e' ∧
    generateFeed fixture_Date_parse_other fixture_matter (@insertion_sort) fs_lost = Err e'.
Proof.
  apply (getPosts_read_error fixture_Date_parse_other fixture_matter (@insertion_sort)
           fs_lost [dir "old"; dir "lost"; dir "new"] "lost" (ReadError "ENOENT")).
  - reflexivity.
  - right. left.
  - vm_compute. reflexivity.
Defined.

Lemma generateFeed_items_witness :
  ∃ feed,
    generateFeed fixture_Date_parse_other fixture_matter (@insertion_sort) fs_two
      = Ok feed ∧
    length (items feed) = length [new_post; old_post] ∧
    ∀ i post, [new_post; old_post] !! i = Some post →
      ∃ item slug,
        items feed !! i = Some item ∧
        Item.title item = get post "title" ∧
        Item.description item = get post "spoiler" ∧
        get post "slug" = JSString slug ∧
        Item.id item = site_url +:+ slug +:+ "/" ∧
        Item.link item = site_url +:+ slug +:+ "/" ∧
        (∀ date, get post "date" = JSString date →
           Item.date item = Date_parse fixture_Date_parse_other (JSString date)) ∧
        (get post "date" = undefined → Item.date item = NaN).
Proof.
  exact (generateFeed_items fixture_Date_parse_other fixture_matter (@insertion_sort)
           insertion_sort_permutation fs_two [new_post; old_post] fs_two_loaded).
Defined.

Lemma getPosts_empty_witness :
  getPosts fixture_Date_parse_other fixture_matter (@insertion_sort) fs_empty = Ok [] ∧
  ∃ feed,
    generateFeed fixture_Date_parse_other fixture_matter (@insertion_sort) fs_empty
      = Ok feed ∧
    items feed = [].
Proof.
  apply (getPosts_empty fixture_Date_parse_other fixture_matter (@insertion_sort)
           insertion_sort_permutation fs_empty [file "favicon.ico"; file "robots.txt"]).
  - reflexivity.
  - intros entry Hin.
    apply elem_of_cons in Hin as [->|Hin]; [reflexivity|].
    apply elem_of_cons in Hin as [->|Hin]; [reflexivity|].
    by apply elem_of_nil in Hin.
Defined.

Lemma fs_partial_readable d :
  d ∈ subdirectories [dir "untitled"; dir "undated"] →
  ∃ text data, readFile fs_partial (index_md d) = Ok text ∧
               fixture_matter (JSString text) = Ok data.
Proof.
  intros Hin.
  apply elem_of_cons in Hin as [->|Hin];
    [eexists _, _; split; vm_compute; reflexivity|].
  apply elem_of_cons in Hin as [->|Hin];
    [eexists _, _; split; vm_compute; reflexivity|].
  by apply elem_of_nil in Hin.
Defined.

Lemma getPosts_missing_fields_witness :
  ∃ posts feed,
    getPosts fixture_Date_parse_other fixture_matter (@insertion_sort) fs_partial
      = Ok posts ∧
    generateFeed fixture_Date_parse_other fixture_matter (@insertion_sort) fs_partial
      = Ok feed ∧
    ∀ d data, holds fixture_matter fs_partial d data →
      make_post d data ∈ posts ∧
      feed_item fixture_Date_parse_other (make_post d data) ∈ items feed ∧
      (data !! "title" = None →
         get (make_post d data) "title" = undefined ∧
         Item.title (feed_item fixture_Date_parse_other (make_post d data)) = undefined) ∧
      (data !! "spoiler" = None →
         get (make_post d data) "spoiler" = undefined ∧
         Item.description (feed_item fixture_Date_parse_other (make_post d data))
           = undefined) ∧
      (data !! "date" = None →
         get (make_post d data) "date" = undefined ∧
         Item.date (feed_item fixture_Date_parse_other (make_post d data)) = NaN).
Proof.
  exact (getPosts_missing_fields fixture_Date_parse_other fixture_matter
           (@insertion_sort) insertion_sort_permutation fs_partial
           [dir "untitled"; dir "undated"] eq_refl fs_partial_readable).
Defined.

Lemma fs_two_no_slug d data :
  holds fixture_matter fs_two d data → data !! "slug" = None.
Proof.
  intros (entries & text & Hdir & Hin & Hread & Hdata).
  injection Hdir as <-.
  apply elem_of_cons in Hin as [->|Hin].
  { vm_compute in Hread. injection Hread as <-.
    vm_compute in Hdata. injection Hdata as <-. vm_compute. reflexivity. }
  apply elem_of_cons in Hin as [->|Hin].
  { vm_compute in Hread. injection Hread as <-.
    vm_compute in Hdata. injection Hdata as <-. vm_compute. reflexivity. }
  by apply elem_of_nil in Hin.
Defined.

Lemma slugs_distinct_witness :
  NoDup ((λ p, get p "slug") <$> [new_post; old_post]) ∧
  (λ p, get p "slug") <$> [new_post; old_post]
    ≡ₚ JSString <$> subdirectories [dir "old"; file "favicon.ico"; dir "new"] ∧
  ∀ post, post ∈ [new_post; old_post] →
    ∃ d data, holds fixture_matter fs_two d data ∧ post = make_post d data ∧
              get post "slug" = JSString d.
Proof.
  apply (slugs_distinct fixture_Date_parse_other fixture_matter (@insertion_sort)
           insertion_sort_permutation fs_two
           [dir "old"; file "favicon.ico"; dir "new"] [new_post; old_post]).
  - reflexivity.
  - apply (bool_decide_unpack _). vm_compute. exact I.
  - apply fs_two_no_slug.
  - apply fs_two_loaded.
Defined.

Lemma generateFeed_feedLinks_witness :
  ∃ feed,
    generateFeed fixture_Date_parse_other fixture_matter (@insertion_sort) fs_two
      = Ok feed ∧
    FeedLinks.atom (FeedOptions.feedLinks (options feed)) = site_url +:+ "atom.xml" ∧
    FeedLinks.rss (FeedOptions.feedLinks (options feed)) = site_url +:+ "rss.xml" ∧
    FeedLinks.atom (FeedOptions.feedLinks (options feed))
      = "https://github.psriram.com/atom.xml" ∧
    FeedLinks.rss (FeedOptions.feedLinks (options feed))
      = "https://github.psriram.com/rss.xml".
Proof.
  destruct (generateFeed fixture_Date_parse_other fixture_matter (@insertion_sort) fs_two)
    as [feed|e] eqn:Hfeed.
  - exists feed. split; [reflexivity|].
    exact (generateFeed_feedLinks fixture_Date_parse_other fixture_matter
             (@insertion_sort) fs_two feed Hfeed).
  - vm_compute in Hfeed. discriminate Hfeed.
Defined.

Lemma getPosts_one_per_directory_witness :
  length [new_post; old_post]
    = length (filter (λ entry, isDirectory entry)
                [dir "old"; file "favicon.ico"; dir "new"]) ∧
  ∃ datas,
    Forall2 (λ d data, holds fixture_matter fs_two d data)
      (subdirectories [dir "old"; file "favicon.ico"; dir "new"]) datas ∧
    [new_post; old_post]
      ≡ₚ zip_with make_post (subdirectories [dir "old"; file "favicon.ico"; dir "new"]) datas.
Proof.
  exact (getPosts_one_per_directory fixture_Date_parse_other fixture_matter
           (@insertion_sort) insertion_sort_permutation fs_two
           [dir "old"; file "favicon.ico"; dir "new"] [new_post; old_post]
           eq_refl fs_two_loaded).
Defined.

Lemma front_matter_slug_overrides_witness :
  (∀ post, post ∈ [second_post; first_post] ↔
     ∃ d data, holds fixture_matter fs_same_slug d data ∧ post = make_post d data) ∧
  (∀ d data, holds fixture_matter fs_same_slug d data →
     (∀ s, data !! "slug" = Some s → get (make_post d data) "slug" = JSString s) ∧
     (data !! "slug" = None → get (make_post d data) "slug" = JSString d)).
Proof.
  exact (proj1 front_matter_slug_overrides fixture_Date_parse_other fixture_matter
           (@insertion_sort) insertion_sort_permutation fs_same_slug
           [second_post; first_post] fs_same_slug_loaded).
Defined.

(** The comparator and the feed items on the fixtures' records. *)

Example compare_old_new : compare fixture_Date_parse_other old_post new_post = 1.
Proof. reflexivity. Qed.

Example compare_new_old : compare fixture_Date_parse_other new_post old_post = -1.
Proof. reflexivity. Qed.

Example compare_same_date : compare fixture_Date_parse_other new_post untitled_post = -1.
Proof. reflexivity. Qed.

Example compare_undated_left : compare fixture_Date_parse_other undated_post new_post = -1.
Proof. reflexivity. Qed.

Example compare_undated_right : compare fixture_Date_parse_other new_post undated_post = -1.
Proof. reflexivity. Qed.

Example feed_item_untitled :
  feed_item fixture_Date_parse_other untitled_post = {|
    Item.date := Finite 1717200000000;
    Item.description := undefined;
    Item.id := "https://github.psriram.com/untitled/";
    Item.link := "https://github.psriram.com/untitled/";
    Item.title := undefined
  |}.
Proof. reflexivity. Qed.

Example feed_item_undated :
  feed_item fixture_Date_parse_other undated_post = {|
    Item.date := NaN;
    Item.description := JSString "Whenever";
    Item.id := "https://github.psriram.com/undated/";
    Item.link := "https://github.psriram.com/undated/";
    Item.title := JSString "Undated"
  |}.
Proof. reflexivity. Qed.

Example getPosts_lost :
  getPosts fixture_Date_parse_other fixture_matter (@insertion_sort) fs_lost
  = Err (ReadError "ENOENT").
Proof. reflexivity. Qed.

(** ** The further properties at the fixtures *)

Lemma fs_two_reversed_loaded :
  getPosts fixture_Date_parse_other fixture_matter (@insertion_sort) fs_two_reversed
  = Ok [new_post; old_post].
Proof. vm_compute. reflexivity. Defined.



Lemma getPosts_parse_error_witness :
  getPosts fixture_Date_parse_other fixture_matter (@insertion_sort) fs_malformed
    = Err (ParseError "not a quoted scalar") ∧
  generateFeed fixture_Date_parse_other fixture_matter (@insertion_sort) fs_malformed
    = Err (ParseError "not a quoted scalar").
Proof.
  apply (getPosts_parse_error fixture_Date_parse_other fixture_matter (@insertion_sort)
           fs_malformed [dir "old"; dir "broken"; dir "new"]
           [old_md; malformed_md; new_md] 1 malformed_md).
  - reflexivity.
  - change (subdirectories [dir "old"; dir "broken"; dir "new"])
      with ["old"; "broken"; "new"].
    repeat constructor; vm_compute; reflexivity.
  - reflexivity.
  - vm_compute. reflexivity.
  - intros [|j] text' Hj Hj'; [|lia].
    injection Hj' as <-. eexists. vm_compute. reflexivity.
Defined.



Lemma fs_two_dates post :
  post ∈ [new_post; old_post] →
  ∃ s t, get post "date" = JSString s ∧
         Date_parse fixture_Date_parse_other (JSString s) = Finite t.
Proof.
  intros Hin.
  apply elem_of_cons in Hin as [->|Hin].
  { exists "2024-06-01", 1717200000000. split; vm_compute; reflexivity. }
  apply elem_of_cons in Hin as [->|Hin].
  { exists "2023-01-01", 1672531200000. split; vm_compute; reflexivity. }
  by apply elem_of_nil in Hin.
Defined.

Lemma generateFeed_newest_first_witness :
  ∃ feed,
    generateFeed fixture_Date_parse_other fixture_matter (@insertion_sort) fs_two
      = Ok feed ∧
    ∀ i x y, items feed !! i = Some x → items feed !! S i = Some y →
      ∃ tx ty, Item.date x = Finite tx ∧ Item.date y = Finite ty ∧ (tx >= ty)%Z.
Proof.
  destruct (generateFeed fixture_Date_parse_other fixture_matter (@insertion_sort) fs_two)
    as [feed|e] eqn:Hfeed.
  - exists feed. split; [reflexivity|].
    exact (generateFeed_newest_first fixture_Date_parse_other fixture_matter
             (@insertion_sort) insertion_sort_permutation insertion_sort_ordered
             fs_two [new_post; old_post] feed fs_two_loaded Hfeed fs_two_dates).
  - vm_compute in Hfeed. discriminate Hfeed.
Defined.

Lemma generateFeed_ids_distinct_witness :
  ∃ feed,
    generateFeed fixture_Date_parse_other fixture_matter (@insertion_sort) fs_two
      = Ok feed ∧
    NoDup (Item.id <$> items feed) ∧
    Item.id <$> items feed
      ≡ₚ (λ d, site_url +:+ d +:+ "/")
           <$> subdirectories [dir "old"; file "favicon.ico"; dir "new"] ∧
    Item.link <$> items feed = Item.id <$> items feed.
Proof.
  destruct (generateFeed fixture_Date_parse_other fixture_matter (@insertion_sort) fs_two)
    as [feed|e] eqn:Hfeed.
  - exists feed. split; [reflexivity|].
    apply (generateFeed_ids_distinct fixture_Date_parse_other fixture_matter
             (@insertion_sort) insertion_sort_permutation fs_two
             [dir "old"; file "favicon.ico"; dir "new"] feed).
    + reflexivity.
    + apply (bool_decide_unpack _). vm_compute. exact I.
    + apply fs_two_no_slug.
    + exact Hfeed.
  - vm_compute in Hfeed. discriminate Hfeed.
Defined.

Lemma fs_two_reversed_same_documents d :
  d ∈ subdirectories [dir "old"; file "favicon.ico"; dir "new"] →
  readFile fs_two (index_md d) = readFile fs_two_reversed (index_md d).
Proof.
  intros Hin.
  apply elem_of_cons in Hin as [->|Hin]; [vm_compute; reflexivity|].
  apply elem_of_cons in Hin as [->|Hin]; [vm_compute; reflexivity|].
  by apply elem_of_nil in Hin.
Defined.

Lemma fs_two_dates_differ p q :
  p ∈ [new_post; old_post] → q ∈ [new_post; old_post] →
  Date_parse fixture_Date_parse_other (get p "date")
    = Date_parse fixture_Date_parse_other (get q "date") →
  p = q.
Proof.
  intros Hp Hq.
  apply elem_of_cons in Hp as [->|Hp]; apply elem_of_cons in Hq as [->|Hq];
    try (apply elem_of_cons in Hp as [->|Hp]);
    try (apply elem_of_cons in Hq as [->|Hq]);
    try (by apply elem_of_nil in Hp); try (by apply elem_of_nil in Hq);
    try reflexivity; vm_compute; intros Heq; discriminate Heq.
Defined.

Lemma getPosts_order_determined_witness :
  getPosts fixture_Date_parse_other fixture_matter (@insertion_sort) fs_two
    = Ok [new_post; old_post] ∧
  getPosts fixture_Date_parse_other fixture_matter (@insertion_sort) fs_two_reversed
    = Ok [new_post; old_post] ∧
  [new_post; old_post] = [new_post; old_post].
Proof.
  split; [apply fs_two_loaded|]. split; [apply fs_two_reversed_loaded|].
  apply (getPosts_order_determined fixture_Date_parse_other fixture_matter
           (@insertion_sort) insertion_sort_permutation insertion_sort_ordered
           fs_two fs_two_reversed
           [dir "old"; file "favicon.ico"; dir "new"] [dir "new"; dir "old"]).
  - reflexivity.
  - reflexivity.
  - change (["old"; "new"] ≡ₚ ["new"; "old"]). apply perm_swap.
  - apply fs_two_reversed_same_documents.
  - apply fs_two_loaded.
  - apply fs_two_reversed_loaded.
  - intros p Hp. destruct (fs_two_dates p Hp) as (s & t & Hs & Ht).
    exists t. by rewrite Hs.
  - apply fs_two_dates_differ.
Defined.


Lemma generateFeed_options_witness :
  ∃ feed,
    generateFeed fixture_Date_parse_other fixture_matter (@insertion_sort) fs_two
      = Ok feed ∧
    options feed = feedOptions ∧
    FeedOptions.id (options feed) = layout.metadataBase ∧
    FeedOptions.link (options feed) = layout.metadataBase ∧
    Author.link (FeedOptions.author (options feed)) = layout.metadataBase ∧
    FeedLinks.atom (FeedOptions.feedLinks (options feed)) = alternates.atom_xml ∧
    FeedLinks.rss (FeedOptions.feedLinks (options feed)) = alternates.rss_xml ∧
    FeedOptions.favicon (options feed) = "https://github.psriram.com//icon.jpeg".
Proof.
  destruct (generateFeed fixture_Date_parse_other fixture_matter (@insertion_sort) fs_two)
    as [feed|e] eqn:Hfeed.
  - exists feed. split; [reflexivity|].
    exact (generateFeed_options fixture_Date_parse_other fixture_matter
             (@insertion_sort) fs_two feed Hfeed).
  - vm_compute in Hfeed. discriminate Hfeed.
Defined.
